(** * Chunk tasks and request batches of the batch scheduler

    A shallow embedding of
    [miloco_ai_engine/core/batch_scheduling/scheduler_task_info.h]:
    the [TaskStatus] enumeration, the [SycChunkTask] record with its two
    comparison operators, and the constructor of [BatchSchedulerInput].

    Pointers are locations of a store, so that the copy made by
    [mtmd_input_chunk_copy] can be told apart from the chunk it was made
    from.  Calls that leave the header ([chunk_hashs],
    [mtmd_input_chunk_copy]) are recorded in a call log. *)

From stdpp Require Import base option list gmap strings.
From Stdlib Require Import ZArith Lia.

Local Open Scope Z_scope.

(** ** Machine integers *)

(** [size_t] on the 64-bit targets the engine is built for. *)
Definition SIZE_MAX : Z := 2 ^ 64 - 1.

Definition size_t_wrap (z : Z) : Z := z mod (SIZE_MAX + 1).

(** Unsigned subtraction and increment, as [a - b] and [++i] on [size_t]. *)
Definition size_t_sub (a b : Z) : Z := size_t_wrap (a - b).
Definition size_t_incr (i : Z) : Z := size_t_wrap (i + 1).

(** ** [enum class TaskStatus] *)

Inductive TaskStatus : Type :=
| PENDING
| WAIT
| IN_PROGRESS
| COMPLETED
| FAILED.

(** The enumerators' values. *)
Definition TaskStatus_value (s : TaskStatus) : Z :=
  match s with
  | PENDING => 0
  | WAIT => 1
  | IN_PROGRESS => 2
  | COMPLETED => 3
  | FAILED => 4
  end.

#[global] Instance TaskStatus_eq_dec : EqDecision TaskStatus.
Proof. solve_decision. Defined.

(** ** [struct SycChunkTask] *)

(** Addresses of the free store. *)
Definition loc : Type := positive.

(** A [std::shared_ptr] is [None] when null and [Some l] when it points
    to the object at [l].  [cmpl_id] is a [size_t] and [priority] an
    [int32_t]; the header only stores and compares them. *)
Record SycChunkTask : Type := mkSycChunkTask {
  input_chunk : option loc;
  embeddig : option loc;
  chunk_hash : string;
  cmpl_id : Z;
  priority : Z;
  is_last_chunk : bool;
  status : TaskStatus
}.

(** The constructor [SycChunkTask(chunk, cmpl_id, chunk_hash, priority)]:
    the four members of the initialiser list, every other member from its
    default member initialiser ([embeddig] null, [is_last_chunk] false,
    [status] PENDING). *)
Definition new_SycChunkTask
    (chunk : option loc) (id : Z) (hash : string) (prio : Z) : SycChunkTask :=
  {| input_chunk := chunk;
     embeddig := None;
     chunk_hash := hash;
     cmpl_id := id;
     priority := prio;
     is_last_chunk := false;
     status := PENDING |}.

(** [bool operator<(const SycChunkTask& other) const] *)
Definition SycChunkTask_lt (this other : SycChunkTask) : bool :=
  if negb (priority this =? priority other)
  then priority this <? priority other
  else cmpl_id this <? cmpl_id other.

(** [bool operator==(const SycChunkTask& other) const] *)
Definition SycChunkTask_eq (this other : SycChunkTask) : bool :=
  (cmpl_id this =? cmpl_id other) && (priority this =? priority other).

(** The sort key the specification speaks of, and the lexicographic
    order on it. *)
Definition sched_key (t : SycChunkTask) : Z * Z := (priority t, cmpl_id t).

Definition lex_lt (k1 k2 : Z * Z) : Prop :=
  k1.1 < k2.1 ∨ (k1.1 = k2.1 ∧ k1.2 < k2.2).

Definition lex_le (k1 k2 : Z * Z) : Prop := lex_lt k1 k2 ∨ k1 = k2.

(** [m] is minimal in [ts] for [operator<]: no task of [ts] is below it. *)
Definition minimal_task (ts : list SycChunkTask) (m : SycChunkTask) : Prop :=
  m ∈ ts ∧ ∀ t, t ∈ ts → SycChunkTask_lt t m = false.

(** [m] carries the lowest (priority, request id) pair of [ts]. *)
Definition lowest_key (ts : list SycChunkTask) (m : SycChunkTask) : Prop :=
  m ∈ ts ∧ ∀ t, t ∈ ts → lex_le (sched_key m) (sched_key t).

(** ** Writes to [status] *)

(** [status] is a [std::atomic<TaskStatus>]: a load and a
    compare-exchange are each one indivisible step, so the writes of all
    threads to one task form a sequence. *)
Definition status_load (t : SycChunkTask) : TaskStatus := status t.

Definition status_store (t : SycChunkTask) (s : TaskStatus) : SycChunkTask :=
  {| input_chunk := input_chunk t;
     embeddig := embeddig t;
     chunk_hash := chunk_hash t;
     cmpl_id := cmpl_id t;
     priority := priority t;
     is_last_chunk := is_last_chunk t;
     status := s |}.

(** [status.compare_exchange_strong(expected, desired)]: the flag tells
    whether the exchange took place. *)
Definition status_compare_exchange
    (t : SycChunkTask) (expected desired : TaskStatus) : bool * SycChunkTask :=
  if decide (status t = expected) then (true, status_store t desired) else (false, t).

Definition is_terminal (s : TaskStatus) : bool :=
  match s with
  | COMPLETED | FAILED => true
  | PENDING | WAIT | IN_PROGRESS => false
  end.

(** Modelled from the spec: the code that writes [status] (the scheduler
    queue and the completion callbacks) is not in the header.  The
    transitions are those of the lifecycle state machine: PENDING to WAIT,
    WAIT to IN_PROGRESS, IN_PROGRESS to COMPLETED or FAILED, and, for a
    task resolved by deduplication, WAIT to COMPLETED or FAILED. *)
Definition forward (cur next : TaskStatus) : bool :=
  match cur, next with
  | PENDING, WAIT => true
  | WAIT, IN_PROGRESS => true
  | WAIT, COMPLETED | WAIT, FAILED => true
  | IN_PROGRESS, COMPLETED | IN_PROGRESS, FAILED => true
  | _, _ => false
  end.

(** Modelled from the spec: a transition attempt is a compare-and-set
    guarded by "only transition forward"; an attempt that is not a forward
    step leaves the task as it is. *)
Definition try_transition (t : SycChunkTask) (next : TaskStatus) : SycChunkTask :=
  let cur := status_load t in
  if forward cur next then (status_compare_exchange t cur next).2 else t.

(** A sequence of attempts on one task, in the order they take effect. *)
Definition run_transitions (t : SycChunkTask) (attempts : list TaskStatus) : SycChunkTask :=
  foldl try_transition t attempts.

(** The statuses the task goes through, the initial one first. *)
Fixpoint status_history (t : SycChunkTask) (attempts : list TaskStatus) : list TaskStatus :=
  match attempts with
  | [] => [status t]
  | next :: rest => status t :: status_history (try_transition t next) rest
  end.

(** Holds of a list when [R] relates every element to its successor. *)
Fixpoint consecutive {A : Type} (R : A → A → Prop) (l : list A) : Prop :=
  match l with
  | x :: (y :: _) as tl => R x y ∧ consecutive R tl
  | _ => True
  end.

(** One attempt leaves the status alone or takes a forward step. *)
Definition stays_or_advances (s s' : TaskStatus) : Prop :=
  s' = s ∨ forward s s' = true.

(** ** [struct BatchSchedulerInput] *)

Record BatchSchedulerInput : Type := mkBatchSchedulerInput {
  input_chunks : list SycChunkTask
}.

(** Calls that leave the header. *)
Inductive ext_call : Type :=
| Call_chunk_hashs (chunks : list loc)
| Call_mtmd_input_chunk_copy (chunk : loc).

(** [v.size()] of a [std::vector]. *)
Definition vector_size {A : Type} (v : list A) : Z := Z.of_nat (length v).

(** [input_chunks.back()->is_last_chunk = true] *)
Definition set_is_last_chunk (t : SycChunkTask) : SycChunkTask :=
  {| input_chunk := input_chunk t;
     embeddig := embeddig t;
     chunk_hash := chunk_hash t;
     cmpl_id := cmpl_id t;
     priority := priority t;
     is_last_chunk := true;
     status := status t |}.

Definition mark_back (v : list SycChunkTask) : list SycChunkTask :=
  alter set_is_last_chunk (pred (length v)) v.

(** How many tasks of a batch have [is_last_chunk] set. *)
Definition last_chunk_count (ts : list SycChunkTask) : nat :=
  length (filter (λ t, is_last_chunk t = true) ts).

(** The task the loop adds for the chunk at index [k] out of [n], copied
    to [q], with fingerprint [hash]. *)
Definition task_at (n k : nat) (q : loc) (id : Z) (hash : string) (prio : Z)
    : SycChunkTask :=
  {| input_chunk := Some q;
     embeddig := None;
     chunk_hash := hash;
     cmpl_id := id;
     priority := prio;
     is_last_chunk := bool_decide (S k = n);
     status := PENDING |}.

(** The chunk pointers held by the tasks of a batch, null ones left out. *)
Definition chunk_locs (ts : list SycChunkTask) : list loc :=
  omap input_chunk ts.

Section BatchBuilder.

(** The chunk type of the mtmd library, and the Chunk Hasher on one
    chunk's content. *)
Variable mtmd_input_chunk : Type.
Variable chunk_hash_of : mtmd_input_chunk → string.

(** The free store and the log of outside calls. *)
Record world : Type := mkWorld {
  heap : gmap loc mtmd_input_chunk;
  calls : list ext_call
}.

(** A computation ends with a value and a new world, or is undefined
    behaviour (a dangling pointer, an index out of range), or was cut off
    by the step bound of a loop. *)
Inductive outcome (A : Type) : Type :=
| Done (a : A) (w : world)
| Undefined
| OutOfFuel.
#[global] Arguments Done {A} a w.
#[global] Arguments Undefined {A}.
#[global] Arguments OutOfFuel {A}.

Definition M (A : Type) : Type := world → outcome A.

#[global] Instance M_ret : MRet M := λ A a w, Done a w.

#[global] Instance M_bind : MBind M := λ A B f m w,
  match m w with
  | Done a w' => f a w'
  | Undefined => Undefined
  | OutOfFuel => OutOfFuel
  end.

Definition undefined {A : Type} : M A := λ _, Undefined.
Definition out_of_fuel {A : Type} : M A := λ _, OutOfFuel.

Definition log_call (c : ext_call) : M unit := λ w,
  Done () {| heap := heap w; calls := calls w ++ [c] |}.

(** [*p] *)
Definition deref (p : loc) : M mtmd_input_chunk := λ w,
  match heap w !! p with
  | Some c => Done c w
  | None => Undefined
  end.

(** [v[i]] for a [size_t] index. *)
Definition vector_at {A : Type} (v : list A) (i : Z) : M A :=
  match v !! Z.to_nat i with
  | Some x => mret x
  | None => undefined
  end.

(** [new]: an address that is not in use. *)
Definition alloc (c : mtmd_input_chunk) : M loc := λ w,
  let q := fresh (dom (heap w)) in
  Done q {| heap := <[q := c]> (heap w); calls := calls w |}.

(** Modelled from the spec: [mtmd_input_chunk_copy] is a function of the
    mtmd library; it deep-copies the chunk, so that the copy is memory of
    its own with the content of the original. *)
Definition mtmd_input_chunk_copy (chunk : loc) : M loc :=
  _ ← log_call (Call_mtmd_input_chunk_copy chunk);
  c ← deref chunk;
  alloc c.

(** Modelled from the spec: the body of [chunk_hashs], which is declared
    in [utils/chunk-hash.h]; it yields the Chunk Hasher's fingerprint of
    each chunk, in the order of the chunks. *)
Fixpoint hash_each (chunks : list loc) : M (list string) :=
  match chunks with
  | [] => mret []
  | p :: rest =>
      c ← deref p;
      hs ← hash_each rest;
      mret (chunk_hash_of c :: hs)
  end.

(** Modelled from the spec: [chunk_hashs(chunks)] of
    [utils/chunk-hash.h], one call that yields the fingerprints of all the
    chunks. *)
Definition chunk_hashs (chunks : list loc) : M (list string) :=
  _ ← log_call (Call_chunk_hashs chunks);
  hash_each chunks.

(** The [for] loop of the constructor, from index [i] on, with the vector
    built so far. *)
Fixpoint ctor_loop (fuel : nat) (chunks : list loc) (hashs : list string)
    (cmpl_id prio : Z) (i : Z) (input_chunks : list SycChunkTask)
    : M (list SycChunkTask) :=
  if i <? vector_size chunks then
    match fuel with
    | O => out_of_fuel
    | S fuel' =>
        chunk_ptr ← vector_at chunks i;
        chunk ← mtmd_input_chunk_copy chunk_ptr;
        hash ← vector_at hashs i;
        let input_chunks :=
          input_chunks ++ [new_SycChunkTask (Some chunk) cmpl_id hash prio] in
        let input_chunks :=
          if i =? size_t_sub (vector_size chunks) 1
          then mark_back input_chunks
          else input_chunks in
        ctor_loop fuel' chunks hashs cmpl_id prio (size_t_incr i) input_chunks
    end
  else mret input_chunks.

(** [BatchSchedulerInput(chunks, cmpl_id, prio = 0)]: [chunks] is [None]
    for a null pointer, [prio] is [None] when the argument is left out. *)
Definition BatchSchedulerInput_ctor
    (chunks : option (list loc)) (cmpl_id : Z) (prio : option Z)
    : M BatchSchedulerInput :=
  let prio := default 0 prio in
  match chunks with
  | None => mret {| input_chunks := [] |}
  | Some cs =>
      hashs ← chunk_hashs cs;
      tasks ← ctor_loop (length cs) cs hashs cmpl_id prio 0 [];
      mret {| input_chunks := tasks |}
  end.

(** Every chunk of [cs] is in the store of [w], and [hs] lists the
    fingerprints of their contents. *)
Definition hashed (w : world) (cs : list loc) (hs : list string) : Prop :=
  Forall2 (λ p h, ∃ c, heap w !! p = Some c ∧ h = chunk_hash_of c) cs hs.

(** The world after the copy of a chunk with content [c], made on behalf
    of the chunk at [p]. *)
Definition after_copy (w : world) (p : loc) (c : mtmd_input_chunk) : world :=
  {| heap := <[fresh (dom (heap w)) := c]> (heap w);
     calls := calls w ++ [Call_mtmd_input_chunk_copy p] |}.

(** [t] is the task built for the chunk at index [k] out of [n], which
    lies at [p] in the store of [w]: its chunk is a location that was not
    in use in [w] and holds, in [w'], the content that [p] had in [w]. *)
Definition built_from (w w' : world) (id prio : Z)
    (n k : nat) (p : loc) (t : SycChunkTask) : Prop :=
  ∃ q c,
    heap w !! p = Some c ∧ heap w !! q = None ∧ heap w' !! q = Some c ∧
    t = task_at n k q id (chunk_hash_of c) prio.

(** What the caller owes: every element of the sequence points to a chunk
    in the store, and the sequence is no longer than a vector can be. *)
Definition valid_input (w : world) (cs : list loc) : Prop :=
  Forall (λ p, is_Some (heap w !! p)) cs ∧ vector_size cs ≤ SIZE_MAX.

End BatchBuilder.

Arguments Done {mtmd_input_chunk A} a w.
Arguments Undefined {mtmd_input_chunk A}.
Arguments OutOfFuel {mtmd_input_chunk A}.
Arguments mkWorld {mtmd_input_chunk} heap calls.
Arguments heap {mtmd_input_chunk} w.
Arguments calls {mtmd_input_chunk} w.
Arguments valid_input {mtmd_input_chunk} w cs.
Arguments BatchSchedulerInput_ctor {mtmd_input_chunk} chunk_hash_of chunks cmpl_id prio w.
Arguments ctor_loop {mtmd_input_chunk} fuel chunks hashs cmpl_id prio i input_chunks w.
Arguments chunk_hashs {mtmd_input_chunk} chunk_hash_of chunks w.
Arguments hash_each {mtmd_input_chunk} chunk_hash_of chunks w.
Arguments mtmd_input_chunk_copy {mtmd_input_chunk} chunk w.
Arguments hashed {mtmd_input_chunk} chunk_hash_of w cs hs.
Arguments after_copy {mtmd_input_chunk} w p c.
Arguments built_from {mtmd_input_chunk} chunk_hash_of w w' id prio n k p t.

(** ** A request of two chunks *)

(** Chunks are token lists here, and the hasher tells three contents
    apart. *)
Definition example_hash (tokens : list Z) : string :=
  match tokens with
  | [] => "empty"
  | first :: _ => if first =? 1 then "starts-with-1" else "other"
  end.

Definition example_world : world (list Z) :=
  {| heap := <[1%positive := [1; 2]]> (<[2%positive := [3]]> ∅); calls := [] |}.

Definition example_chunks : list loc := [1%positive; 2%positive].

(** * Properties *)

(** ** The comparison operators *)

(** Turns every integer test of the two operators into the fact it
    decides. *)
Ltac cmp_cases :=
  unfold SycChunkTask_lt, SycChunkTask_eq, lex_le, lex_lt, sched_key in *;
  simpl in *;
  repeat match goal with
  | |- context [?x =? ?y] => destruct (Z.eqb_spec x y)
  | |- context [?x <? ?y] => destruct (Z.ltb_spec x y)
  | H : context [?x =? ?y] |- _ => destruct (Z.eqb_spec x y)
  | H : context [?x <? ?y] |- _ => destruct (Z.ltb_spec x y)
  end;
  simpl in *.

Lemma SycChunkTask_lt_lex (a b : SycChunkTask) :
  SycChunkTask_lt a b = true ↔ lex_lt (sched_key a) (sched_key b).
Proof. cmp_cases; split; intros; (lia || congruence). Qed.

Lemma SycChunkTask_lt_false_lex (a b : SycChunkTask) :
  SycChunkTask_lt a b = false ↔ lex_le (sched_key b) (sched_key a).
Proof.
  destruct a as [? ? ? ida pa ? ?], b as [? ? ? idb pb ? ?].
  cmp_cases; split; intros Hle; try congruence.
  all: try (destruct Hle as [Hle | Hle]; [lia | inversion Hle; lia]).
  all: assert (pb < pa ∨ (pb = pa ∧ idb < ida) ∨ (pb = pa ∧ idb = ida))
         as [Hlt | [Hlt | [-> ->]]] by lia;
       [left; lia | left; lia | right; reflexivity].
Qed.

Lemma SycChunkTask_eq_fields (a b : SycChunkTask) :
  SycChunkTask_eq a b = true ↔ cmpl_id a = cmpl_id b ∧ priority a = priority b.
Proof. cmp_cases; split; intros; (lia || congruence || auto). Qed.

Lemma SycChunkTask_eq_key (a b : SycChunkTask) :
  SycChunkTask_eq a b = true ↔ sched_key a = sched_key b.
Proof.
  rewrite SycChunkTask_eq_fields. unfold sched_key. split.
  - intros [-> ->]. reflexivity.
  - intros H. inversion H. auto.
Qed.

Lemma same_key_neither_below (a b : SycChunkTask) :
  cmpl_id a = cmpl_id b → priority a = priority b →
  SycChunkTask_eq a b = true ∧
  SycChunkTask_lt a b = false ∧ SycChunkTask_lt b a = false.
Proof. intros Hid Hp. cmp_cases; repeat split; (lia || congruence). Qed.

(** C1: [a < b] holds exactly when (priority, request id) of [a] is
    lexicographically below that of [b]; hence the tasks of a collection
    that no task is below are those with the lowest (priority, request id)
    pair. *)
Theorem operator_lt_lexicographic
    (a b : SycChunkTask) (ts : list SycChunkTask) (m : SycChunkTask) :
  (SycChunkTask_lt a b = true ↔ lex_lt (sched_key a) (sched_key b)) ∧
  (minimal_task ts m ↔ lowest_key ts m).
Proof.
  split; [apply SycChunkTask_lt_lex |].
  unfold minimal_task, lowest_key.
  split; intros [Hm Hall]; (split; [exact Hm |]); intros t Ht.
  - apply SycChunkTask_lt_false_lex, Hall, Ht.
  - apply SycChunkTask_lt_false_lex, Hall, Ht.
Qed.

(** The dequeue example of the specification: of (5, A), (2, B), (2, A)
    with A before B, the minimal task is (2, A). *)
Example minimal_of_three :
  let t p id := new_SycChunkTask None id "" p in
  minimal_task [t 5 1; t 2 2; t 2 1] (t 2 1).
Proof.
  simpl. split.
  - set_solver.
  - intros t Ht.
    repeat (apply elem_of_cons in Ht as [-> | Ht]); [reflexivity .. |].
    by apply elem_of_nil in Ht.
Qed.

(** C7: [a == b] holds exactly when request id and priority agree; every
    other member can be replaced without changing the answer. *)
Theorem operator_eq_request_and_priority (a b : SycChunkTask) :
  (SycChunkTask_eq a b = true ↔ cmpl_id a = cmpl_id b ∧ priority a = priority b) ∧
  (∀ chunk chunk' emb emb' hash hash' last last' st st',
     SycChunkTask_eq
       (mkSycChunkTask chunk emb hash (cmpl_id a) (priority a) last st)
       (mkSycChunkTask chunk' emb' hash' (cmpl_id b) (priority b) last' st')
     = SycChunkTask_eq a b).
Proof.
  split.
  - apply SycChunkTask_eq_fields.
  - intros. reflexivity.
Qed.

(** C8: tasks with the same request id and priority are equivalent for
    both operators whatever their fingerprints, and there are such tasks
    with different fingerprints. *)
Theorem same_request_chunks_not_distinguished :
  (∀ a b, cmpl_id a = cmpl_id b → priority a = priority b →
     SycChunkTask_eq a b = true ∧
     SycChunkTask_lt a b = false ∧ SycChunkTask_lt b a = false) ∧
  (∃ a b, cmpl_id a = cmpl_id b ∧ priority a = priority b ∧
     chunk_hash a ≠ chunk_hash b ∧
     SycChunkTask_eq a b = true ∧
     SycChunkTask_lt a b = false ∧ SycChunkTask_lt b a = false).
Proof.
  split; [exact same_key_neither_below |].
  exists (new_SycChunkTask (Some 1%positive) 7 "aa" 0),
         (new_SycChunkTask (Some 2%positive) 7 "bb" 0).
  repeat split; try reflexivity.
  simpl. discriminate.
Qed.

(** C10: [==] is the equivalence of the strict order [<]: [a == b] iff
    neither is below the other; [<] is irreflexive and transitive, and of
    [a < b], [b < a], [a == b] exactly one holds. *)
Theorem operator_eq_consistent_with_lt (a b c : SycChunkTask) :
  (SycChunkTask_eq a b = true ↔
     SycChunkTask_lt a b = false ∧ SycChunkTask_lt b a = false) ∧
  SycChunkTask_lt a a = false ∧
  (SycChunkTask_lt a b = true → SycChunkTask_lt b c = true →
     SycChunkTask_lt a c = true) ∧
  (SycChunkTask_lt a b = true ∨ SycChunkTask_lt b a = true ∨
     SycChunkTask_eq a b = true) ∧
  ¬ (SycChunkTask_lt a b = true ∧ SycChunkTask_lt b a = true) ∧
  ¬ (SycChunkTask_lt a b = true ∧ SycChunkTask_eq a b = true) ∧
  ¬ (SycChunkTask_lt b a = true ∧ SycChunkTask_eq a b = true).
Proof.
  split; [| repeat apply conj].
  - cmp_cases; split; intros Hcmp; try (lia || congruence);
      repeat split; (lia || congruence).
  - cmp_cases; (lia || congruence).
  - cmp_cases; intros; (lia || congruence).
  - cmp_cases; auto; lia.
  - intros [Hab Hba]. cmp_cases; (lia || congruence).
  - intros [Hab Heq]. cmp_cases; (lia || congruence).
  - intros [Hba Heq]. cmp_cases; (lia || congruence).
Qed.

Lemma same_request_chunks_not_distinguished_witness :
  SycChunkTask_eq (new_SycChunkTask (Some 1%positive) 7 "aa" 0)
                  (new_SycChunkTask (Some 2%positive) 7 "bb" 0) = true ∧
  SycChunkTask_lt (new_SycChunkTask (Some 1%positive) 7 "aa" 0)
                  (new_SycChunkTask (Some 2%positive) 7 "bb" 0) = false ∧
  SycChunkTask_lt (new_SycChunkTask (Some 2%positive) 7 "bb" 0)
                  (new_SycChunkTask (Some 1%positive) 7 "aa" 0) = false.
Proof.
  apply (proj1 same_request_chunks_not_distinguished); reflexivity.
Defined.

Lemma operator_eq_consistent_with_lt_witness :
  SycChunkTask_lt (new_SycChunkTask None 9 "a" 1)
                  (new_SycChunkTask None 4 "c" 3) = true.
Proof.
  apply (operator_eq_consistent_with_lt
           (new_SycChunkTask None 9 "a" 1)
           (new_SycChunkTask None 2 "b" 3)
           (new_SycChunkTask None 4 "c" 3)); reflexivity.
Defined.

(** ** Writes to [status] *)

Lemma forward_value (s s' : TaskStatus) :
  forward s s' = true → TaskStatus_value s < TaskStatus_value s'.
Proof. destruct s, s'; simpl; intros H; (discriminate || lia). Qed.

Lemma forward_not_terminal (s s' : TaskStatus) :
  forward s s' = true → is_terminal s = false.
Proof. destruct s, s'; simpl; intros H; (discriminate || reflexivity). Qed.

Lemma try_transition_status (t : SycChunkTask) (next : TaskStatus) :
  status (try_transition t next)
  = if forward (status t) next then next else status t.
Proof.
  unfold try_transition, status_compare_exchange, status_load.
  destruct (forward (status t) next); [| reflexivity].
  destruct (decide (status t = status t)) as [_ | Hne]; [reflexivity |].
  by destruct Hne.
Qed.

Lemma try_transition_terminal (t : SycChunkTask) (next : TaskStatus) :
  is_terminal (status t) = true → try_transition t next = t.
Proof.
  intros Hterm. unfold try_transition, status_load.
  destruct (forward (status t) next) eqn:Hfwd; [| reflexivity].
  apply forward_not_terminal in Hfwd. congruence.
Qed.

Lemma try_transition_stays_or_advances (t : SycChunkTask) (next : TaskStatus) :
  stays_or_advances (status t) (status (try_transition t next)).
Proof.
  rewrite try_transition_status. unfold stays_or_advances.
  destruct (forward (status t) next) eqn:Hfwd; auto.
Qed.

Lemma run_transitions_terminal (t : SycChunkTask) (attempts : list TaskStatus) :
  is_terminal (status t) = true → run_transitions t attempts = t.
Proof.
  intros Hterm. unfold run_transitions.
  induction attempts as [| next rest IH]; simpl; [reflexivity |].
  rewrite try_transition_terminal by exact Hterm. exact IH.
Qed.

Lemma status_history_advances (attempts : list TaskStatus) (t : SycChunkTask) :
  consecutive stays_or_advances (status_history t attempts).
Proof.
  revert t. induction attempts as [| next rest IH]; intros t; simpl; [exact I |].
  specialize (IH (try_transition t next)).
  destruct rest as [| next' rest']; simpl in *;
    (split; [apply try_transition_stays_or_advances | exact IH]).
Qed.

Lemma consecutive_impl {A : Type} (R R' : A → A → Prop) (l : list A) :
  (∀ x y, R x y → R' x y) → consecutive R l → consecutive R' l.
Proof.
  intros HR. induction l as [| x [| y tl] IH]; simpl; auto.
  intros [Hxy Htl]. split; [apply HR, Hxy | apply IH, Htl].
Qed.

(** The atomic member by itself does not keep a terminal status: a plain
    store replaces it.  The guard of [try_transition] is what does. *)
Remark status_store_replaces_terminal (t : SycChunkTask) (s : TaskStatus) :
  status (status_store t s) = s ∧
  status (status_store (status_store t COMPLETED) WAIT) = WAIT.
Proof. split; reflexivity. Qed.

(** C4: under any sequence of transition attempts the status only stays
    or takes a step of PENDING, WAIT, IN_PROGRESS, COMPLETED or FAILED in
    that order, so its enumerator value never decreases; and once the
    status is terminal every further attempt leaves the task unchanged. *)
Theorem status_transitions_monotonic
    (t : SycChunkTask) (before after : list TaskStatus) :
  consecutive stays_or_advances (status_history t (before ++ after)) ∧
  consecutive (λ s s', TaskStatus_value s ≤ TaskStatus_value s')
    (status_history t (before ++ after)) ∧
  (is_terminal (status (run_transitions t before)) = true →
     run_transitions t (before ++ after) = run_transitions t before ∧
     ∀ next, try_transition (run_transitions t before) next
             = run_transitions t before).
Proof.
  split; [apply status_history_advances |].
  split.
  - eapply consecutive_impl; [| apply status_history_advances].
    intros s s' [-> | Hfwd]; [lia |].
    apply forward_value in Hfwd. lia.
  - intros Hterm. split.
    + unfold run_transitions at 1. rewrite foldl_app.
      apply (run_transitions_terminal _ after Hterm).
    + intros next. apply try_transition_terminal, Hterm.
Qed.

Lemma status_transitions_monotonic_witness :
  run_transitions (new_SycChunkTask None 1 "h" 0)
    ([WAIT; IN_PROGRESS; FAILED] ++ [COMPLETED; WAIT; PENDING])
  = run_transitions (new_SycChunkTask None 1 "h" 0) [WAIT; IN_PROGRESS; FAILED].
Proof.
  apply (status_transitions_monotonic (new_SycChunkTask None 1 "h" 0)
           [WAIT; IN_PROGRESS; FAILED] [COMPLETED; WAIT; PENDING]).
  reflexivity.
Defined.

(** ** The constructor of [BatchSchedulerInput] *)

Lemma size_t_sub_one (n : Z) : 1 ≤ n ≤ SIZE_MAX → size_t_sub n 1 = n - 1.
Proof.
  intros Hn. unfold size_t_sub, size_t_wrap.
  apply Z.mod_small. unfold SIZE_MAX in *. lia.
Qed.

Lemma size_t_incr_below (i n : Z) :
  0 ≤ i < n → n ≤ SIZE_MAX → size_t_incr i = i + 1.
Proof.
  intros Hi Hn. unfold size_t_incr, size_t_wrap.
  apply Z.mod_small. unfold SIZE_MAX in *. lia.
Qed.

Lemma mark_back_snoc (v : list SycChunkTask) (t : SycChunkTask) :
  mark_back (v ++ [t]) = v ++ [set_is_last_chunk t].
Proof.
  unfold mark_back. rewrite length_app. simpl.
  replace (pred (length v + 1)) with (length v + 0)%nat by lia.
  rewrite alter_app_r. reflexivity.
Qed.

Section BatchBuilderProofs.

Variable mtmd_input_chunk : Type.
Variable chunk_hash_of : mtmd_input_chunk → string.

Implicit Types w : world mtmd_input_chunk.

Lemma fresh_loc_unused (w : world mtmd_input_chunk) : heap w !! fresh (dom (heap w)) = None.
Proof. apply not_elem_of_dom, is_fresh. Qed.

Lemma after_copy_heap_mono (w : world mtmd_input_chunk) (p : loc) (c : mtmd_input_chunk) :
  heap w ⊆ heap (after_copy w p c).
Proof. simpl. apply insert_subseteq, fresh_loc_unused. Qed.

Lemma mtmd_input_chunk_copy_Done (w : world mtmd_input_chunk) (p : loc) (c : mtmd_input_chunk) :
  heap w !! p = Some c →
  mtmd_input_chunk_copy p w = Done (fresh (dom (heap w))) (after_copy w p c).
Proof.
  intros Hp. unfold mtmd_input_chunk_copy, mbind, M_bind, log_call, deref, alloc.
  simpl. rewrite Hp. reflexivity.
Qed.

Lemma hash_each_Done (w : world mtmd_input_chunk) (cs : list loc) :
  Forall (λ p, is_Some (heap w !! p)) cs →
  ∃ hs, hash_each chunk_hash_of cs w = Done hs w ∧ hashed chunk_hash_of w cs hs.
Proof.
  induction 1 as [| p rest [c Hc] _ (hs & Hrun & Hhs)]; simpl.
  - exists []. split; [reflexivity | constructor].
  - exists (chunk_hash_of c :: hs). split.
    + unfold mbind, M_bind, deref. rewrite Hc, Hrun. reflexivity.
    + constructor; [eauto | exact Hhs].
Qed.

Lemma hashed_mono (w w' : world mtmd_input_chunk) (cs : list loc) (hs : list string) :
  heap w ⊆ heap w' → hashed chunk_hash_of w cs hs → hashed chunk_hash_of w' cs hs.
Proof.
  intros Hsub Hhs. unfold hashed in *.
  eapply Forall2_impl; [exact Hhs |].
  intros p h (c & Hc & ->). exists c. split; [| reflexivity].
  eapply lookup_weaken; eassumption.
Qed.

(** One turn of the loop at index [k]. *)
Lemma ctor_loop_turn (fuel : nat) (w : world mtmd_input_chunk) (cs : list loc) (hs : list string)
    (id prio : Z) (k : nat) (acc : list SycChunkTask)
    (p : loc) (c : mtmd_input_chunk) (h : string) :
  vector_size cs ≤ SIZE_MAX →
  cs !! k = Some p → heap w !! p = Some c → hs !! k = Some h →
  ctor_loop (S fuel) cs hs id prio (Z.of_nat k) acc w
  = ctor_loop fuel cs hs id prio (Z.of_nat (S k))
      (acc ++ [task_at (length cs) k (fresh (dom (heap w))) id h prio])
      (after_copy w p c).
Proof.
  intros Hsize Hk Hp Hh.
  pose proof (lookup_lt_Some _ _ _ Hk) as Hlt.
  unfold vector_size in Hsize.
  simpl ctor_loop. unfold vector_size.
  destruct (Z.ltb_spec (Z.of_nat k) (Z.of_nat (length cs))) as [_ | Hge]; [| lia].
  unfold mbind at 1, M_bind at 1. unfold vector_at at 1.
  rewrite Nat2Z.id, Hk. unfold mret at 1, M_ret at 1.
  unfold mbind at 1, M_bind at 1.
  rewrite (mtmd_input_chunk_copy_Done w p c Hp).
  unfold mbind at 1, M_bind at 1. unfold vector_at at 1.
  rewrite Nat2Z.id, Hh. unfold mret at 1, M_ret at 1.
  rewrite size_t_sub_one by lia.
  rewrite (size_t_incr_below _ (Z.of_nat (length cs))) by lia.
  replace (Z.of_nat k + 1) with (Z.of_nat (S k)) by lia.
  f_equal.
  unfold task_at, new_SycChunkTask.
  destruct (Z.eqb_spec (Z.of_nat k) (Z.of_nat (length cs) - 1)) as [Heq | Hne].
  - rewrite mark_back_snoc. rewrite bool_decide_eq_true_2 by lia. reflexivity.
  - rewrite bool_decide_eq_false_2 by lia. reflexivity.
Qed.

Lemma ctor_loop_exit (fuel : nat) (w : world mtmd_input_chunk) (cs : list loc) (hs : list string)
    (id prio : Z) (acc : list SycChunkTask) :
  ctor_loop fuel cs hs id prio (Z.of_nat (length cs)) acc w = Done acc w.
Proof.
  destruct fuel; simpl; unfold vector_size;
    rewrite Z.ltb_irrefl; reflexivity.
Qed.

Lemma built_from_earlier (w w1 w' : world mtmd_input_chunk) (id prio : Z)
    (n k : nat) (p : loc) (t : SycChunkTask) :
  heap w ⊆ heap w1 → is_Some (heap w !! p) →
  built_from chunk_hash_of w1 w' id prio n k p t → built_from chunk_hash_of w w' id prio n k p t.
Proof.
  intros Hsub [c0 Hc0] (q & c & Hp & Hq & Hq' & ->).
  exists q, c. repeat split; [| | exact Hq'].
  - pose proof (lookup_weaken _ _ _ _ Hc0 Hsub) as Hp1. congruence.
  - destruct (heap w !! q) as [x |] eqn:Hx; [| reflexivity].
    pose proof (lookup_weaken _ _ _ _ Hx Hsub) as Hq1. congruence.
Qed.

(** The loop from index [k] on, with [rem] chunks left and fuel for them. *)
Lemma ctor_loop_spec (cs : list loc) (hs : list string) (id prio : Z) (rem : nat) :
  vector_size cs ≤ SIZE_MAX →
  ∀ (fuel k : nat) (acc : list SycChunkTask) w,
    hashed chunk_hash_of w cs hs → (k + rem = length cs)%nat → (rem ≤ fuel)%nat →
    ∃ ts w',
      ctor_loop fuel cs hs id prio (Z.of_nat k) acc w = Done (acc ++ ts) w' ∧
      length ts = rem ∧
      heap w ⊆ heap w' ∧
      calls w' = calls w ++ (Call_mtmd_input_chunk_copy <$> drop k cs) ∧
      ∀ j p, cs !! (k + j)%nat = Some p →
        ∃ t, ts !! j = Some t ∧ built_from chunk_hash_of w w' id prio (length cs) (k + j) p t.
Proof.
  intros Hsize.
  induction rem as [| rem IH]; intros fuel k acc w Hhs Hk Hfuel.
  - exists [], w. replace k with (length cs) by lia.
    rewrite ctor_loop_exit, app_nil_r, drop_all, app_nil_r.
    repeat split; try reflexivity.
    intros j p Hp. apply lookup_lt_Some in Hp. lia.
  - destruct fuel as [| fuel]; [lia |].
    destruct (lookup_lt_is_Some_2 cs k) as [p Hp]; [lia |].
    destruct (Forall2_lookup_l _ _ _ _ _ Hhs Hp) as (h & Hh & c & Hc & ->).
    rewrite (ctor_loop_turn fuel w cs hs id prio k acc p c _ Hsize Hp Hc Hh).
    set (t0 := task_at (length cs) k (fresh (dom (heap w))) id (chunk_hash_of c) prio).
    pose proof (after_copy_heap_mono w p c) as Hsub.
    destruct (IH fuel (S k) (acc ++ [t0]) (after_copy w p c))
      as (ts & w' & Hrun & Hlen & Hsub' & Hcalls & Htasks);
      [eapply hashed_mono; eassumption | lia | lia |].
    exists (t0 :: ts), w'. rewrite Hrun, <- app_assoc. simpl.
    split; [reflexivity |]. split; [lia |].
    split; [etrans; eassumption |].
    split.
    + rewrite Hcalls. simpl. rewrite <- app_assoc. simpl.
      rewrite (drop_S cs p k Hp). reflexivity.
    + intros [| j] p' Hp'.
      * rewrite Nat.add_0_r in *. exists t0. split; [reflexivity |].
        assert (p' = p) as -> by congruence.
        exists (fresh (dom (heap w))), c.
        repeat split; [exact Hc | apply fresh_loc_unused | ].
        eapply lookup_weaken; [| exact Hsub']. simpl. apply lookup_insert_eq.
      * replace (k + S j)%nat with (S k + j)%nat in * by lia.
        destruct (Htasks j p' Hp') as (t & Ht & Hbuilt).
        exists t. split; [exact Ht |].
        eapply built_from_earlier; [exact Hsub | | exact Hbuilt].
        destruct (Forall2_lookup_l _ _ _ _ _ Hhs Hp') as (? & _ & c' & Hc' & _).
        eauto.
Qed.

(** The constructor on a sequence that is not null. *)
Lemma ctor_Some_spec w (cs : list loc) (id : Z) (prio : option Z) :
  valid_input w cs →
  ∃ ts w',
    BatchSchedulerInput_ctor chunk_hash_of (Some cs) id prio w
      = Done {| input_chunks := ts |} w' ∧
    length ts = length cs ∧
    heap w ⊆ heap w' ∧
    calls w' = calls w ++ Call_chunk_hashs cs :: (Call_mtmd_input_chunk_copy <$> cs) ∧
    ∀ j p, cs !! j = Some p →
      ∃ t, ts !! j = Some t ∧
           built_from chunk_hash_of w w' id (default 0 prio) (length cs) j p t.
Proof.
  intros [Hvalid Hsize].
  set (w0 := {| heap := heap w; calls := calls w ++ [Call_chunk_hashs cs] |}).
  destruct (hash_each_Done w0 cs Hvalid) as (hs & Hhash & Hhs).
  destruct (ctor_loop_spec cs hs id (default 0 prio) (length cs) Hsize
              (length cs) 0%nat [] w0 Hhs eq_refl (le_n _))
    as (ts & w' & Hrun & Hlen & Hsub & Hcalls & Htasks).
  exists ts, w'.
  split.
  - assert (chunk_hashs chunk_hash_of cs w = Done hs w0) as Hhashs.
    { unfold chunk_hashs, mbind, M_bind, log_call. exact Hhash. }
    unfold BatchSchedulerInput_ctor, mbind, M_bind.
    rewrite Hhashs. change (Z.of_nat 0) with 0 in Hrun. rewrite Hrun. reflexivity.
  - split; [exact Hlen |]. split; [exact Hsub |]. split.
    + rewrite Hcalls. simpl. rewrite <- app_assoc. reflexivity.
    + intros j p Hp. destruct (Htasks j p Hp) as (t & Ht & Hbuilt).
      exists t. split; [exact Ht | exact Hbuilt].
Qed.

(** C3: on an empty sequence the constructor ends without error with an
    empty batch; the hashes of the empty sequence were asked for, nothing
    was copied. *)
Theorem ctor_empty_sequence w (id : Z) (prio : option Z) :
  BatchSchedulerInput_ctor chunk_hash_of (Some []) id prio w
  = Done {| input_chunks := [] |}
      {| heap := heap w; calls := calls w ++ [Call_chunk_hashs []] |}.
Proof.
  unfold BatchSchedulerInput_ctor, chunk_hashs, mbind, M_bind, log_call.
  simpl. reflexivity.
Qed.

(** C9: on a null pointer the constructor returns at once with an empty
    batch and without error: the world is the one it started in, so
    neither [chunk_hashs] nor [mtmd_input_chunk_copy] was called. *)
Theorem ctor_null_sequence w (id : Z) (prio : option Z) :
  BatchSchedulerInput_ctor chunk_hash_of None id prio w
    = Done {| input_chunks := [] |} w ∧
  ∀ batch w',
    BatchSchedulerInput_ctor chunk_hash_of None id prio w = Done batch w' →
    input_chunks batch = [] ∧ calls w' = calls w ∧ heap w' = heap w.
Proof.
  split; [reflexivity |].
  intros batch w' Hrun. unfold BatchSchedulerInput_ctor in Hrun.
  inversion Hrun; subst. auto.
Qed.

Lemma filter_none {A : Type} (P : A → Prop) `{!∀ x, Decision (P x)} (l : list A) :
  (∀ x, x ∈ l → ¬ P x) → filter P l = [].
Proof.
  induction l as [| x l IH]; intros Hl; [reflexivity |].
  rewrite filter_cons_False by (apply Hl; left).
  apply IH. intros y Hy. apply Hl. by right.
Qed.

Lemma last_chunk_count_one (ts : list SycChunkTask) :
  ts ≠ [] →
  (∀ j t, ts !! j = Some t → is_last_chunk t = bool_decide (S j = length ts)) →
  last_chunk_count ts = 1%nat.
Proof.
  intros Hne Hflags.
  destruct (exists_last Hne) as (l & x & ->).
  unfold last_chunk_count. rewrite filter_app, length_app.
  rewrite length_app in Hflags. simpl in Hflags.
  rewrite filter_none.
  - rewrite filter_cons_True; [reflexivity |].
    rewrite (Hflags (length l) x) by (apply list_lookup_middle; reflexivity).
    apply bool_decide_eq_true_2. lia.
  - intros t Ht. apply list_elem_of_lookup in Ht as [j Hj].
    pose proof (lookup_lt_Some _ _ _ Hj) as Hlt.
    rewrite (Hflags j t) by (apply lookup_app_l_Some, Hj).
    rewrite bool_decide_eq_false_2 by lia. discriminate.
Qed.

(** C2: for a sequence that is not empty the batch has exactly one task
    with [is_last_chunk] set, the one at the last position; every other
    task has it clear. *)
Theorem ctor_marks_only_last_chunk w (cs : list loc) (id : Z) (prio : option Z) :
  cs ≠ [] → valid_input w cs →
  ∃ ts w',
    BatchSchedulerInput_ctor chunk_hash_of (Some cs) id prio w
      = Done {| input_chunks := ts |} w' ∧
    length ts = length cs ∧
    (∀ j t, ts !! j = Some t → is_last_chunk t = bool_decide (S j = length cs)) ∧
    (∃ t, last ts = Some t ∧ is_last_chunk t = true) ∧
    last_chunk_count ts = 1%nat.
Proof.
  intros Hne Hvalid.
  destruct (ctor_Some_spec w cs id prio Hvalid)
    as (ts & w' & Hrun & Hlen & _ & _ & Htasks).
  assert (∀ j t, ts !! j = Some t →
            is_last_chunk t = bool_decide (S j = length cs)) as Hflags.
  { intros j t Ht.
    destruct (lookup_lt_is_Some_2 cs j) as [p Hp].
    { rewrite <- Hlen. eapply lookup_lt_Some, Ht. }
    destruct (Htasks j p Hp) as (t' & Ht' & q & c & _ & _ & _ & ->).
    assert (t = task_at (length cs) j q id (chunk_hash_of c) (default 0 prio))
      as -> by congruence.
    reflexivity. }
  assert (ts ≠ []) as Hts.
  { intros ->. destruct cs; [congruence | discriminate]. }
  exists ts, w'. repeat split; [exact Hrun | exact Hlen | exact Hflags | |].
  - destruct (exists_last Hts) as (l & x & ->).
    exists x. split; [apply last_snoc |].
    rewrite (Hflags (length l) x) by (apply list_lookup_middle; reflexivity).
    apply bool_decide_eq_true_2.
    rewrite <- Hlen, length_app. simpl. lia.
  - apply last_chunk_count_one; [exact Hts |].
    rewrite Hlen. exact Hflags.
Qed.

(** C5: the batch has one task for each chunk, in input order.  Task [i]
    points to a copy of chunk [i]: a location that was not in use before
    the call and holds the content of chunk [i], whatever happens
    afterwards to the locations that were in use before the call.  Its
    fingerprint is the Chunk Hasher's hash of that content, and it carries
    the request id and the priority given, 0 when none is given.  The
    chunks of the caller are left as they were. *)
Theorem ctor_one_task_per_chunk w (cs : list loc) (id : Z) (prio : option Z) :
  valid_input w cs →
  ∃ ts w',
    BatchSchedulerInput_ctor chunk_hash_of (Some cs) id prio w
      = Done {| input_chunks := ts |} w' ∧
    length ts = length cs ∧
    heap w ⊆ heap w' ∧
    ∀ i p c, cs !! i = Some p → heap w !! p = Some c →
      ∃ t q,
        ts !! i = Some t ∧
        input_chunk t = Some q ∧
        (q ∉ dom (heap w)) ∧
        heap w' !! q = Some c ∧
        (∀ later : gmap loc mtmd_input_chunk,
           (∀ l, l ∉ dom (heap w) → later !! l = heap w' !! l) →
           later !! q = Some c) ∧
        chunk_hash t = chunk_hash_of c ∧
        cmpl_id t = id ∧
        priority t = match prio with Some given => given | None => 0 end.
Proof.
  intros Hvalid.
  destruct (ctor_Some_spec w cs id prio Hvalid)
    as (ts & w' & Hrun & Hlen & Hsub & _ & Htasks).
  exists ts, w'. repeat split; [exact Hrun | exact Hlen | exact Hsub |].
  intros i p c Hp Hc.
  destruct (Htasks i p Hp) as (t & Ht & q & c' & Hc' & Hq & Hq' & ->).
  assert (c' = c) as -> by congruence.
  assert (q ∉ dom (heap w)) as Hfresh by (apply not_elem_of_dom, Hq).
  exists (task_at (length cs) i q id (chunk_hash_of c) (default 0 prio)), q.
  split; [exact Ht |]. split; [reflexivity |].
  split; [exact Hfresh |]. split; [exact Hq' |].
  split; [| split; [reflexivity | split; [reflexivity |]]].
  - intros later Hsame. rewrite (Hsame q Hfresh). exact Hq'.
  - destruct prio; reflexivity.
Qed.

(** C6: a task comes out of its constructor in state PENDING with a null
    embedding pointer, marking the last chunk changes neither, and so every
    task of a finished batch is PENDING with a null embedding pointer. *)
Theorem ctor_tasks_start_pending w (chunks : option (list loc)) (id : Z)
    (prio : option Z) :
  (∀ cs, chunks = Some cs → valid_input w cs) →
  (∀ chunk id' hash prio',
     status (new_SycChunkTask chunk id' hash prio') = PENDING ∧
     embeddig (new_SycChunkTask chunk id' hash prio') = None) ∧
  (∀ t, status (set_is_last_chunk t) = status t ∧
        embeddig (set_is_last_chunk t) = embeddig t) ∧
  ∃ batch w',
    BatchSchedulerInput_ctor chunk_hash_of chunks id prio w = Done batch w' ∧
    Forall (λ t, status t = PENDING ∧ embeddig t = None) (input_chunks batch).
Proof.
  intros Hvalid.
  split; [intros; split; reflexivity |].
  split; [intros; split; reflexivity |].
  destruct chunks as [cs |].
  - destruct (ctor_Some_spec w cs id prio (Hvalid cs eq_refl))
      as (ts & w' & Hrun & Hlen & _ & _ & Htasks).
    exists {| input_chunks := ts |}, w'. split; [exact Hrun |].
    simpl. apply Forall_lookup. intros j t Ht.
    destruct (lookup_lt_is_Some_2 cs j) as [p Hp].
    { rewrite <- Hlen. eapply lookup_lt_Some, Ht. }
    destruct (Htasks j p Hp) as (t' & Ht' & q & c & _ & _ & _ & ->).
    assert (t = task_at (length cs) j q id (chunk_hash_of c) (default 0 prio))
      as -> by congruence.
    split; reflexivity.
  - exists {| input_chunks := [] |}, w. split; [reflexivity | constructor].
Qed.

End BatchBuilderProofs.

(** ** The request of two chunks *)

Lemma example_valid : valid_input example_world example_chunks.
Proof.
  split.
  - repeat constructor; eexists; reflexivity.
  - unfold vector_size, SIZE_MAX. simpl. lia.
Defined.

Lemma ctor_null_sequence_witness :
  input_chunks (mkBatchSchedulerInput []) = [] ∧
  calls example_world = calls example_world ∧
  heap example_world = heap example_world.
Proof.
  apply (proj2 (ctor_null_sequence (list Z) example_hash example_world 42 None)
           (mkBatchSchedulerInput []) example_world).
  reflexivity.
Defined.

Lemma ctor_marks_only_last_chunk_witness :
  ∃ ts w',
    BatchSchedulerInput_ctor example_hash (Some example_chunks) 42 None example_world
      = Done {| input_chunks := ts |} w' ∧
    last_chunk_count ts = 1%nat.
Proof.
  destruct (ctor_marks_only_last_chunk (list Z) example_hash example_world
              example_chunks 42 None)
    as (ts & w' & Hrun & _ & _ & _ & Hcount).
  - discriminate.
  - exact example_valid.
  - exists ts, w'. split; [exact Hrun | exact Hcount].
Defined.

Lemma ctor_one_task_per_chunk_witness :
  ∃ ts w',
    BatchSchedulerInput_ctor example_hash (Some example_chunks) 42 (Some 3) example_world
      = Done {| input_chunks := ts |} w' ∧
    length ts = 2%nat.
Proof.
  destruct (ctor_one_task_per_chunk (list Z) example_hash example_world
              example_chunks 42 (Some 3) example_valid)
    as (ts & w' & Hrun & Hlen & _).
  exists ts, w'. split; [exact Hrun | exact Hlen].
Defined.

Lemma ctor_tasks_start_pending_witness :
  ∃ batch w',
    BatchSchedulerInput_ctor example_hash (Some example_chunks) 42 None example_world
      = Done batch w' ∧
    Forall (λ t, status t = PENDING ∧ embeddig t = None) (input_chunks batch).
Proof.
  apply (ctor_tasks_start_pending (list Z) example_hash example_world
           (Some example_chunks) 42 None).
  intros cs Hcs. injection Hcs as <-. exact example_valid.
Defined.

(** The batch of the example, computed. *)
Example example_batch :
  ∃ w',
    BatchSchedulerInput_ctor example_hash (Some example_chunks) 42 None example_world
    = Done
        {| input_chunks :=
             [ mkSycChunkTask (Some 3%positive) None "starts-with-1" 42 0 false PENDING;
               mkSycChunkTask (Some 4%positive) None "other" 42 0 true PENDING ] |}
        w' ∧
    calls w' = [ Call_chunk_hashs example_chunks;
                 Call_mtmd_input_chunk_copy 1%positive;
                 Call_mtmd_input_chunk_copy 2%positive ] ∧
    heap w' !! 3%positive = Some [1; 2] ∧
    heap w' !! 4%positive = Some [3].
Proof.
  eexists. split; [vm_compute; reflexivity |].
  repeat split; vm_compute; reflexivity.
Qed.

(** * Further properties *)

(** ** The operators as a sorting criterion *)

Lemma SycChunkTask_lt_negative_trans (a b c : SycChunkTask) :
  SycChunkTask_lt a b = false → SycChunkTask_lt b c = false →
  SycChunkTask_lt a c = false.
Proof. cmp_cases; intros Hab Hbc; (lia || congruence). Qed.

Lemma SycChunkTask_lt_below (x m t : SycChunkTask) :
  SycChunkTask_lt x m = true → SycChunkTask_lt t m = false →
  SycChunkTask_lt t x = false.
Proof. cmp_cases; intros Hxm Htm; (lia || congruence). Qed.

Lemma SycChunkTask_eq_from_lt (a b : SycChunkTask) :
  SycChunkTask_lt a b = false → SycChunkTask_lt b a = false →
  SycChunkTask_eq a b = true.
Proof. cmp_cases; intros Hab Hba; (lia || congruence). Qed.

Lemma SycChunkTask_lt_same_key (a a' b b' : SycChunkTask) :
  sched_key a = sched_key a' → sched_key b = sched_key b' →
  SycChunkTask_lt a b = SycChunkTask_lt a' b'.
Proof.
  unfold sched_key, SycChunkTask_lt. intros Ha Hb.
  inversion Ha as [[Hpa Hia]]. inversion Hb as [[Hpb Hib]].
  rewrite Hpa, Hia, Hpb, Hib. reflexivity.
Qed.

(** X1: [operator<] is a strict weak ordering with [operator==] as its
    equivalence: [==] is reflexive, symmetric and transitive, [<] gives
    the same answer on [==] tasks, and "not below" is transitive. *)
Theorem operator_lt_strict_weak_ordering (a b c a' b' : SycChunkTask) :
  SycChunkTask_eq a a = true ∧
  SycChunkTask_eq a b = SycChunkTask_eq b a ∧
  (SycChunkTask_eq a b = true → SycChunkTask_eq b c = true →
     SycChunkTask_eq a c = true) ∧
  (SycChunkTask_eq a a' = true → SycChunkTask_eq b b' = true →
     SycChunkTask_lt a b = SycChunkTask_lt a' b') ∧
  (SycChunkTask_lt a b = false → SycChunkTask_lt b c = false →
     SycChunkTask_lt a c = false).
Proof.
  repeat apply conj.
  - apply SycChunkTask_eq_key. reflexivity.
  - destruct (SycChunkTask_eq a b) eqn:Hab, (SycChunkTask_eq b a) eqn:Hba;
      try reflexivity.
    + apply SycChunkTask_eq_key in Hab. symmetry in Hab.
      apply SycChunkTask_eq_key in Hab. congruence.
    + apply SycChunkTask_eq_key in Hba. symmetry in Hba.
      apply SycChunkTask_eq_key in Hba. congruence.
  - rewrite !SycChunkTask_eq_key. congruence.
  - rewrite !SycChunkTask_eq_key. apply SycChunkTask_lt_same_key.
  - apply SycChunkTask_lt_negative_trans.
Qed.

Lemma operator_lt_strict_weak_ordering_witness :
  SycChunkTask_lt (new_SycChunkTask None 7 "x" 2) (new_SycChunkTask None 9 "y" 2)
  = SycChunkTask_lt (new_SycChunkTask (Some 5%positive) 7 "z" 2)
                    (mkSycChunkTask None None "y" 9 2 true FAILED).
Proof.
  apply (operator_lt_strict_weak_ordering
           (new_SycChunkTask None 7 "x" 2) (new_SycChunkTask None 9 "y" 2)
           (new_SycChunkTask None 9 "y" 2)
           (new_SycChunkTask (Some 5%positive) 7 "z" 2)
           (mkSycChunkTask None None "y" 9 2 true FAILED)); reflexivity.
Defined.

Lemma minimal_task_exists (ts : list SycChunkTask) :
  ts ≠ [] → ∃ m, minimal_task ts m.
Proof.
  induction ts as [| x ts IH]; [congruence |]. intros _.
  destruct ts as [| y ts].
  - exists x. split; [left |].
    intros t Ht. apply list_elem_of_singleton in Ht as ->.
    apply SycChunkTask_lt_false_lex. right. reflexivity.
  - destruct IH as (m & Hm & Hmin); [discriminate |].
    destruct (SycChunkTask_lt x m) eqn:Hxm.
    + exists x. split; [left |].
      intros t Ht. apply elem_of_cons in Ht as [-> | Ht].
      * apply SycChunkTask_lt_false_lex. right. reflexivity.
      * eapply SycChunkTask_lt_below; [exact Hxm | apply Hmin, Ht].
    + exists m. split; [right; exact Hm |].
      intros t Ht. apply elem_of_cons in Ht as [-> | Ht];
        [exact Hxm | apply Hmin, Ht].
Qed.

(** X2: a collection that is not empty has a minimal task for
    [operator<], and any two minimal tasks of it are [==]. *)
Theorem minimal_task_exists_unique (ts : list SycChunkTask) :
  ts ≠ [] →
  (∃ m, minimal_task ts m) ∧
  (∀ m m', minimal_task ts m → minimal_task ts m' →
     SycChunkTask_eq m m' = true).
Proof.
  intros Hne. split; [apply minimal_task_exists, Hne |].
  intros m m' [Hm Hmin] [Hm' Hmin'].
  apply SycChunkTask_eq_from_lt; [apply Hmin', Hm | apply Hmin, Hm'].
Qed.

Lemma minimal_task_exists_unique_witness :
  ∃ m, minimal_task
         [new_SycChunkTask None 1 "a" 5; new_SycChunkTask None 2 "b" 2;
          new_SycChunkTask None 1 "c" 2] m.
Proof.
  apply (minimal_task_exists_unique
           [new_SycChunkTask None 1 "a" 5; new_SycChunkTask None 2 "b" 2;
            new_SycChunkTask None 1 "c" 2]).
  discriminate.
Defined.

(** X3: a store to [status] and the marking of the last chunk leave both
    comparisons as they were, so a task that is minimal in a collection
    stays minimal when the statuses of its tasks are stored to and tasks
    are marked as last chunk. *)
Theorem minimal_task_unchanged_by_writes
    (ts : list SycChunkTask) (m : SycChunkTask)
    (new_status : SycChunkTask → TaskStatus) (marked : SycChunkTask → bool) :
  let write t :=
    status_store (if marked t then set_is_last_chunk t else t) (new_status t) in
  (∀ a b, SycChunkTask_lt (write a) (write b) = SycChunkTask_lt a b ∧
          SycChunkTask_eq (write a) (write b) = SycChunkTask_eq a b) ∧
  (minimal_task ts m → minimal_task (write <$> ts) (write m)).
Proof.
  intros write.
  assert (∀ t, sched_key (write t) = sched_key t) as Hkey.
  { intros t. unfold write. destruct (marked t); reflexivity. }
  assert (∀ a b, SycChunkTask_lt (write a) (write b) = SycChunkTask_lt a b) as Hlt.
  { intros a b. apply SycChunkTask_lt_same_key; apply Hkey. }
  split.
  - intros a b. split; [apply Hlt |].
    unfold write. destruct (marked a), (marked b); reflexivity.
  - intros [Hm Hmin]. split.
    + apply list_elem_of_fmap. exists m. split; [reflexivity | exact Hm].
    + intros t' Ht'. apply list_elem_of_fmap in Ht' as (t & -> & Ht).
      rewrite Hlt. apply Hmin, Ht.
Qed.

Lemma minimal_task_unchanged_by_writes_witness :
  minimal_task
    ((λ t, status_store (if is_last_chunk t then set_is_last_chunk t else t) FAILED)
       <$> [new_SycChunkTask None 1 "a" 5; new_SycChunkTask None 1 "c" 2])
    (status_store (new_SycChunkTask None 1 "c" 2) FAILED).
Proof.
  apply (minimal_task_unchanged_by_writes
           [new_SycChunkTask None 1 "a" 5; new_SycChunkTask None 1 "c" 2]
           (new_SycChunkTask None 1 "c" 2) (λ _, FAILED) is_last_chunk).
  split; [set_solver |].
  intros t Ht.
  repeat (apply elem_of_cons in Ht as [-> | Ht]); [reflexivity .. |].
  by apply elem_of_nil in Ht.
Defined.

(** ** More on the constructor of [BatchSchedulerInput] *)

Section BatchBuilderMore.

Variable mtmd_input_chunk : Type.
Variable chunk_hash_of : mtmd_input_chunk → string.

Implicit Types w : world mtmd_input_chunk.

Lemma live_mono w w' (cs : list loc) :
  heap w ⊆ heap w' →
  Forall (λ p, is_Some (heap w !! p)) cs →
  Forall (λ p, is_Some (heap w' !! p)) cs.
Proof.
  intros Hsub Hlive. eapply Forall_impl; [exact Hlive |].
  intros p [c Hc]. exists c. eapply lookup_weaken; eassumption.
Qed.

Lemma after_copy_dom w (p : loc) (c : mtmd_input_chunk) :
  dom (heap (after_copy w p c)) = {[fresh (dom (heap w))]} ∪ dom (heap w).
Proof. simpl. apply dom_insert_L. Qed.

(** A turn of the loop at an index for which there is no hash. *)
Lemma ctor_loop_turn_no_hash (fuel : nat) w (cs : list loc) (hs : list string)
    (id prio : Z) (k : nat) (acc : list SycChunkTask)
    (p : loc) (c : mtmd_input_chunk) :
  cs !! k = Some p → heap w !! p = Some c → hs !! k = None →
  ctor_loop (S fuel) cs hs id prio (Z.of_nat k) acc w = Undefined.
Proof.
  intros Hk Hp Hh.
  pose proof (lookup_lt_Some _ _ _ Hk) as Hlt.
  simpl ctor_loop. unfold vector_size.
  destruct (Z.ltb_spec (Z.of_nat k) (Z.of_nat (length cs))) as [_ | Hge]; [| lia].
  unfold mbind at 1, M_bind at 1. unfold vector_at at 1.
  rewrite Nat2Z.id, Hk. unfold mret at 1, M_ret at 1.
  unfold mbind at 1, M_bind at 1.
  rewrite (mtmd_input_chunk_copy_Done _ w p c Hp).
  unfold mbind at 1, M_bind at 1. unfold vector_at at 1.
  rewrite Nat2Z.id, Hh. reflexivity.
Qed.

(** The loop from index [k] on, for any vector of hashes that has one for
    each chunk. *)
Lemma ctor_loop_any_hashes (cs : list loc) (hs : list string) (id prio : Z)
    (rem : nat) :
  vector_size cs ≤ SIZE_MAX → (length cs ≤ length hs)%nat →
  ∀ (fuel k : nat) (acc : list SycChunkTask) w,
    Forall (λ p, is_Some (heap w !! p)) cs →
    (k + rem = length cs)%nat → (rem ≤ fuel)%nat →
    ∃ ts w',
      ctor_loop fuel cs hs id prio (Z.of_nat k) acc w = Done (acc ++ ts) w' ∧
      length ts = rem ∧
      heap w ⊆ heap w' ∧
      (∀ j t, ts !! j = Some t → hs !! (k + j)%nat = Some (chunk_hash t)) ∧
      length (chunk_locs ts) = rem ∧
      NoDup (chunk_locs ts) ∧
      (∀ q, q ∈ chunk_locs ts → q ∉ dom (heap w)) ∧
      dom (heap w') = dom (heap w) ∪ list_to_set (chunk_locs ts).
Proof using Type.
  clear chunk_hash_of.
  intros Hsize Hhs.
  induction rem as [| rem IH]; intros fuel k acc w Hlive Hk Hfuel.
  - exists [], w. replace k with (length cs) by lia.
    rewrite ctor_loop_exit, app_nil_r.
    repeat split; try reflexivity.
    + intros j t Ht. discriminate.
    + constructor.
    + intros q Hq. by apply elem_of_nil in Hq.
    + apply set_eq. intros x. rewrite elem_of_union, elem_of_list_to_set.
      split; [auto |]. intros [Hx | Hx]; [exact Hx |].
      by apply elem_of_nil in Hx.
  - destruct fuel as [| fuel]; [lia |].
    destruct (lookup_lt_is_Some_2 cs k) as [p Hp]; [lia |].
    destruct (lookup_lt_is_Some_2 hs k) as [h Hh]; [lia |].
    destruct (proj1 (Forall_lookup _ _) Hlive k p Hp) as [c Hc].
    rewrite (ctor_loop_turn _ fuel w cs hs id prio k acc p c h Hsize Hp Hc Hh).
    set (q0 := fresh (dom (heap w))).
    set (t0 := task_at (length cs) k q0 id h prio).
    pose proof (after_copy_heap_mono _ w p c) as Hsub.
    pose proof (after_copy_dom w p c) as Hdom1. fold q0 in Hdom1.
    destruct (IH fuel (S k) (acc ++ [t0]) (after_copy w p c))
      as (ts & w' & Hrun & Hlen & Hsub' & Hhash & Hlocs & Hnodup & Hnew & Hdom);
      [eapply live_mono; eassumption | lia | lia |].
    assert (q0 ∉ dom (heap w)) as Hq0 by apply is_fresh.
    exists (t0 :: ts), w'. rewrite Hrun, <- app_assoc. simpl.
    split; [reflexivity |]. split; [lia |].
    split; [etrans; eassumption |].
    split; [| split; [| split; [| split]]].
    + intros [| j] t Ht.
      * rewrite Nat.add_0_r. simpl in Ht. injection Ht as <-. exact Hh.
      * replace (k + S j)%nat with (S k + j)%nat by lia. apply Hhash, Ht.
    + unfold chunk_locs in Hlocs, Hnodup, Hnew, Hdom |- *. simpl. lia.
    + unfold chunk_locs in Hlocs, Hnodup, Hnew, Hdom |- *. simpl. apply NoDup_cons. split; [| exact Hnodup].
      intros Hin. apply (Hnew q0 Hin). rewrite Hdom1.
      apply elem_of_union_l, elem_of_singleton. reflexivity.
    + unfold chunk_locs in Hlocs, Hnodup, Hnew, Hdom |- *. simpl. intros q Hq.
      apply elem_of_cons in Hq as [-> | Hq]; [exact Hq0 |].
      intros Hin. apply (Hnew q Hq). rewrite Hdom1.
      apply elem_of_union_r, Hin.
    + unfold chunk_locs in Hlocs, Hnodup, Hnew, Hdom |- *. simpl. rewrite Hdom, Hdom1.
      apply set_eq. intros x. rewrite !elem_of_union. tauto.
Qed.

(** The loop on a vector of hashes that is too short. *)
Lemma ctor_loop_short_hashes (cs : list loc) (hs : list string) (id prio : Z)
    (rem : nat) :
  vector_size cs ≤ SIZE_MAX → (length hs < length cs)%nat →
  ∀ (fuel k : nat) (acc : list SycChunkTask) w,
    Forall (λ p, is_Some (heap w !! p)) cs →
    (k + rem = length hs)%nat → (rem < fuel)%nat →
    ctor_loop fuel cs hs id prio (Z.of_nat k) acc w = Undefined.
Proof.
  intros Hsize Hhs.
  induction rem as [| rem IH]; intros fuel k acc w Hlive Hk Hfuel;
    (destruct fuel as [| fuel]; [lia |]);
    (destruct (lookup_lt_is_Some_2 cs k) as [p Hp]; [lia |]);
    destruct (proj1 (Forall_lookup _ _) Hlive k p Hp) as [c Hc].
  - apply (ctor_loop_turn_no_hash fuel w cs hs id prio k acc p c Hp Hc).
    apply lookup_ge_None. lia.
  - destruct (lookup_lt_is_Some_2 hs k) as [h Hh]; [lia |].
    rewrite (ctor_loop_turn _ fuel w cs hs id prio k acc p c h Hsize Hp Hc Hh).
    apply IH; [| lia | lia].
    eapply live_mono; [apply after_copy_heap_mono | exact Hlive].
Qed.

(** X4: the loop gives task [i] the hash at index [i] of the vector it
    is handed, whatever that vector holds, and ends normally when the
    vector has a hash for each chunk; with fewer hashes than chunks the
    read of [hashs[i]] is out of range. *)
Theorem ctor_loop_pairs_chunks_with_hashes w (cs : list loc) (hs : list string)
    (id prio : Z) :
  valid_input w cs →
  ((length cs ≤ length hs)%nat →
     ∃ ts w',
       ctor_loop (length cs) cs hs id prio 0 [] w = Done ts w' ∧
       length ts = length cs ∧
       ∀ j t, ts !! j = Some t → hs !! j = Some (chunk_hash t)) ∧
  ((length hs < length cs)%nat →
     ctor_loop (length cs) cs hs id prio 0 [] w = Undefined).
Proof using Type.
  intros [Hlive Hsize]. split; intros Hhs.
  - destruct (ctor_loop_any_hashes cs hs id prio (length cs) Hsize Hhs
                (length cs) 0%nat [] w Hlive eq_refl (le_n _))
      as (ts & w' & Hrun & Hlen & _ & Hhash & _).
    exists ts, w'. split; [exact Hrun |]. split; [exact Hlen | exact Hhash].
  - apply (ctor_loop_short_hashes cs hs id prio (length hs) Hsize Hhs
             (length cs) 0%nat [] w Hlive eq_refl Hhs).
Qed.



Lemma ctor_tasks_key w (cs : list loc) (id : Z) (prio : option Z) :
  valid_input w cs →
  ∃ ts w',
    BatchSchedulerInput_ctor chunk_hash_of (Some cs) id prio w
      = Done {| input_chunks := ts |} w' ∧
    ∀ t, t ∈ ts → sched_key t = (default 0 prio, id).
Proof.
  intros Hvalid.
  destruct (ctor_Some_spec _ chunk_hash_of w cs id prio Hvalid)
    as (ts & w' & Hrun & Hlen & _ & _ & Htasks).
  exists ts, w'. split; [exact Hrun |].
  intros t Ht. apply list_elem_of_lookup in Ht as [j Hj].
  destruct (lookup_lt_is_Some_2 cs j) as [p Hp].
  { rewrite <- Hlen. eapply lookup_lt_Some, Hj. }
  destruct (Htasks j p Hp) as (t' & Ht' & q & c & _ & _ & _ & ->).
  assert (t = task_at (length cs) j q id (chunk_hash_of c) (default 0 prio))
    as -> by congruence.
  reflexivity.
Qed.

(** X7: all tasks of one batch carry the request id and the priority of
    the call, so any two of them are [==] and neither is below the other:
    [operator<] does not order the chunks of a request. *)
Theorem batch_tasks_share_key w (chunks : option (list loc)) (id : Z)
    (prio : option Z) :
  (∀ cs, chunks = Some cs → valid_input w cs) →
  ∃ batch w',
    BatchSchedulerInput_ctor chunk_hash_of chunks id prio w = Done batch w' ∧
    (∀ t, t ∈ input_chunks batch →
       cmpl_id t = id ∧ priority t = default 0 prio) ∧
    (∀ a b, a ∈ input_chunks batch → b ∈ input_chunks batch →
       SycChunkTask_eq a b = true ∧ SycChunkTask_lt a b = false).
Proof.
  intros Hvalid. destruct chunks as [cs |].
  - destruct (ctor_tasks_key w cs id prio (Hvalid cs eq_refl))
      as (ts & w' & Hrun & Hkey).
    exists {| input_chunks := ts |}, w'. simpl.
    split; [exact Hrun |]. split.
    + intros t Ht. specialize (Hkey t Ht). unfold sched_key in Hkey.
      inversion Hkey as [[Hp Hi]]. split; reflexivity.
    + intros a b Ha Hb.
      pose proof (Hkey a Ha) as Hka. pose proof (Hkey b Hb) as Hkb.
      unfold sched_key in Hka, Hkb.
      inversion Hka as [[Hpa Hia]]. inversion Hkb as [[Hpb Hib]].
      destruct (same_key_neither_below a b) as (Heq & Hlt & _);
        [congruence | congruence |].
      split; [exact Heq | exact Hlt].
  - exists {| input_chunks := [] |}, w. simpl.
    split; [reflexivity |].
    split.
    + intros t Ht. by apply elem_of_nil in Ht.
    + intros a b Ha. by apply elem_of_nil in Ha.
Qed.

(** X8: for two batches, a task of the first is below a task of the
    second exactly when (priority, request id) of the first call is
    lexicographically below that of the second: the order never
    interleaves the tasks of two batches. *)
Theorem batches_ordered_by_request w1 w2 (cs1 cs2 : list loc) (id1 id2 : Z)
    (prio1 prio2 : option Z) :
  valid_input w1 cs1 → valid_input w2 cs2 →
  ∃ batch1 w1' batch2 w2',
    BatchSchedulerInput_ctor chunk_hash_of (Some cs1) id1 prio1 w1
      = Done batch1 w1' ∧
    BatchSchedulerInput_ctor chunk_hash_of (Some cs2) id2 prio2 w2
      = Done batch2 w2' ∧
    ∀ a b, a ∈ input_chunks batch1 → b ∈ input_chunks batch2 →
      (SycChunkTask_lt a b = true ↔
         lex_lt (default 0 prio1, id1) (default 0 prio2, id2)).
Proof.
  intros Hvalid1 Hvalid2.
  destruct (ctor_tasks_key w1 cs1 id1 prio1 Hvalid1) as (ts1 & w1' & Hrun1 & Hkey1).
  destruct (ctor_tasks_key w2 cs2 id2 prio2 Hvalid2) as (ts2 & w2' & Hrun2 & Hkey2).
  exists {| input_chunks := ts1 |}, w1', {| input_chunks := ts2 |}, w2'. simpl.
  split; [exact Hrun1 |]. split; [exact Hrun2 |].
  intros a b Ha Hb.
  rewrite SycChunkTask_lt_lex, (Hkey1 a Ha), (Hkey2 b Hb). reflexivity.
Qed.

End BatchBuilderMore.

(** ** The request of two chunks, again *)

Lemma ctor_loop_pairs_chunks_with_hashes_witness :
  ctor_loop 2 example_chunks ["only-one"] 42 0 0 [] example_world = Undefined.
Proof.
  apply (proj2 (ctor_loop_pairs_chunks_with_hashes (list Z) example_world
                  example_chunks ["only-one"] 42 0 example_valid)).
  simpl. lia.
Defined.



Lemma batch_tasks_share_key_witness :
  ∃ batch w',
    BatchSchedulerInput_ctor example_hash (Some example_chunks) 42 (Some 3)
      example_world = Done batch w' ∧
    ∀ a b, a ∈ input_chunks batch → b ∈ input_chunks batch →
      SycChunkTask_eq a b = true ∧ SycChunkTask_lt a b = false.
Proof.
  destruct (batch_tasks_share_key (list Z) example_hash example_world
              (Some example_chunks) 42 (Some 3))
    as (batch & w' & Hrun & _ & Hpair).
  - intros cs Hcs. injection Hcs as <-. exact example_valid.
  - exists batch, w'. split; [exact Hrun | exact Hpair].
Defined.

Lemma batches_ordered_by_request_witness :
  ∃ batch1 w1' batch2 w2',
    BatchSchedulerInput_ctor example_hash (Some example_chunks) 7 (Some 2)
      example_world = Done batch1 w1' ∧
    BatchSchedulerInput_ctor example_hash (Some example_chunks) 4 (Some 5)
      example_world = Done batch2 w2' ∧
    ∀ a b, a ∈ input_chunks batch1 → b ∈ input_chunks batch2 →
      (SycChunkTask_lt a b = true ↔ lex_lt (2, 7) (5, 4)).
Proof.
  apply (batches_ordered_by_request (list Z) example_hash example_world
           example_world example_chunks example_chunks 7 4 (Some 2) (Some 5)
           example_valid example_valid).
Defined.
